(** * A shallow embedding of src/lib/archiveCache.js

    The module keeps two pieces of module-level state: [_archiveStore], a
    JS [Map] from string keys to entry objects, and [_archiveOrder], an
    array of keys from least to most recently used.  Both are threaded
    explicitly here as a record [cache].  [Date.now()] is an explicit [now]
    argument of every operation that reads the clock.

    The source fixes the capacity and the TTL as the constants
    [ARCHIVE_CACHE_MAX_SIZE] and [ARCHIVE_CACHE_TTL]; the operations below
    take them as arguments [cap] and [ttl], and [archive_cache_exec] instantiates
    them with the source's constants. *)

From Stdlib Require Import ZArith Lia.
From stdpp Require Import base gmap sets list strings.

Open Scope Z_scope.

(** ** JS values and objects *)

(** The values an entry object can hold: the source stores archive buffers,
    archive types, lists of file names and the numeric timestamp. *)
Inductive jsval :=
| JNum (z : Z)
| JStr (s : string)
| JBool (b : bool)
| JNull
| JUndefined
| JBuffer (bytes : list Z)
| JStrArray (ss : list string).

(** A plain JS object, as a finite map from property names to values. *)
Abbreviation jsobj := (gmap string jsval).

(** ** The module state *)

Record cache := mkCache {
  _archiveStore : gmap string jsobj;
  _archiveOrder : list string;
}.

Definition empty_cache : cache := mkCache ∅ [].

Definition ARCHIVE_CACHE_MAX_SIZE : nat := 30.
Definition ARCHIVE_CACHE_TTL : Z := 30 * 60 * 1000.

(** ** Array helpers: [indexOf], [splice(idx, 1)], [shift], [push] *)

Fixpoint index_of_nat (k : string) (l : list string) : option nat :=
  match l with
  | [] => None
  | x :: r => if String.eqb x k then Some 0%nat
              else option_map S (index_of_nat k r)
  end.

(** [arr.indexOf(k)]: the first index of [k], or [-1]. *)
Definition indexOf (l : list string) (k : string) : Z :=
  match index_of_nat k l with
  | None => -1
  | Some n => Z.of_nat n
  end.

(** [arr.splice(idx, 1)] on a non-negative in-range index. *)
Definition splice1 (l : list string) (idx : Z) : list string :=
  take (Z.to_nat idx) l ++ drop (S (Z.to_nat idx)) l.

(** [arr.shift()]: the removed first element ([undefined] on an empty
    array, modelled as [None]) and the remaining array. *)
Definition shift (l : list string) : option string * list string :=
  match l with
  | [] => (None, [])
  | x :: r => (Some x, r)
  end.

Definition push (l : list string) (k : string) : list string := l ++ [k].

(** [Map.prototype.delete] with a possibly [undefined] key: deleting
    [undefined] from a map with string keys does nothing. *)
Definition map_delete_opt (ok : option string) (m : gmap string jsobj)
  : gmap string jsobj :=
  match ok with
  | None => m
  | Some k => delete k m
  end.

(** ** The operations *)

(** [deleteArchive(key)] *)
Definition deleteArchive (key : string) (c : cache) : cache :=
  let store := delete key (_archiveStore c) in
  let idx := indexOf (_archiveOrder c) key in
  let order := if Z.ltb (-1) idx then splice1 (_archiveOrder c) idx
               else _archiveOrder c in
  mkCache store order.

(** The TTL test [Date.now() - item.timestamp > ARCHIVE_CACHE_TTL].  Every
    entry written by [setArchive] carries a numeric [timestamp]; for any
    other value the subtraction yields [NaN] and the comparison is false. *)
Definition ttl_expired (ttl now : Z) (item : jsobj) : bool :=
  match item !! "timestamp"%string with
  | Some (JNum t) => Z.ltb ttl (now - t)
  | _ => false
  end.

(** [getArchive(key)]: the returned item ([null] is [None]) and the new
    state.  An item is a non-empty-or-empty object, which JS treats as
    truthy, so [!item] holds exactly when the key is missing. *)
Definition getArchive (ttl now : Z) (key : string) (c : cache)
  : option jsobj * cache :=
  match _archiveStore c !! key with
  | None => (None, c)
  | Some item =>
      if ttl_expired ttl now item then (None, deleteArchive key c)
      else
        let idx := indexOf (_archiveOrder c) key in
        if Z.ltb (-1) idx
        then (Some item,
              mkCache (_archiveStore c)
                      (push (splice1 (_archiveOrder c) idx) key))
        else (Some item, c)
  end.

(** The loop [while (_archiveOrder.length >= ARCHIVE_CACHE_MAX_SIZE)
    { const oldestKey = _archiveOrder.shift(); _archiveStore.delete(oldestKey); }]
    run for at most [fuel] tests of its condition.  [None] means the
    condition still held when the fuel ran out; [evict_loop_fuel_mono] and
    [evict_loop_cap0_diverges] below show that [None] at every fuel is
    exactly a loop that never stops. *)
Fixpoint evict_loop (fuel : nat) (cap : nat) (c : cache) : option cache :=
  match fuel with
  | O => None
  | S f =>
      if Nat.leb cap (length (_archiveOrder c)) then
        let '(oldestKey, rest) := shift (_archiveOrder c) in
        evict_loop f cap (mkCache (map_delete_opt oldestKey (_archiveStore c)) rest)
      else Some c
  end.

(** [setArchive(key, value)] with the loop run for [fuel] tests. *)
Definition setArchive_fuel (fuel : nat) (cap : nat) (now : Z)
    (key : string) (value : jsobj) (c : cache) : option cache :=
  let order0 :=
    if bool_decide (is_Some (_archiveStore c !! key)) then
      let idx := indexOf (_archiveOrder c) key in
      if Z.ltb (-1) idx then splice1 (_archiveOrder c) idx else _archiveOrder c
    else _archiveOrder c in
  match evict_loop fuel cap (mkCache (_archiveStore c) order0) with
  | None => None
  | Some c1 =>
      Some (mkCache (<[key := <["timestamp"%string := JNum now]> value]> (_archiveStore c1))
                    (push (_archiveOrder c1) key))
  end.

(** [setArchive(key, value)]: the loop needs at most one test more than
    there are keys in the order array, as each iteration shifts one away,
    unless the capacity is 0, where it never stops (see
    [evict_loop_cap0_diverges]). *)
Definition setArchive (cap : nat) (now : Z) (key : string) (value : jsobj)
    (c : cache) : option cache :=
  setArchive_fuel (S (length (_archiveOrder c))) cap now key value c.

(** [ARCHIVE_CACHE.has] *)
Definition has (key : string) (c : cache) : bool :=
  bool_decide (is_Some (_archiveStore c !! key)).

Record stats := mkStats {
  st_size : nat;
  st_maxSize : nat;
  st_keys : list string;
}.

(** [getArchiveCacheStats()] *)
Definition getArchiveCacheStats (cap : nat) (c : cache) : stats :=
  mkStats (size (_archiveStore c)) cap (_archiveOrder c).

(** ** The exported interface [ARCHIVE_CACHE] as one interpreter *)

Inductive op :=
| OpGet (now : Z) (key : string)
| OpSet (now : Z) (key : string) (value : jsobj)
| OpDelete (key : string)
| OpHas (key : string)
| OpStats.

Inductive result :=
| RGet (r : option jsobj)
| RUnit
| RHas (b : bool)
| RStats (s : stats).

(** One call on [ARCHIVE_CACHE]; [None] when the call does not return. *)
Definition exec (cap : nat) (ttl : Z) (o : op) (c : cache)
  : option (result * cache) :=
  match o with
  | OpGet now k => let '(r, c') := getArchive ttl now k c in Some (RGet r, c')
  | OpSet now k v => option_map (fun c' => (RUnit, c')) (setArchive cap now k v c)
  | OpDelete k => Some (RUnit, deleteArchive k c)
  | OpHas k => Some (RHas (has k c), c)
  | OpStats => Some (RStats (getArchiveCacheStats cap c), c)
  end.

(** A sequence of calls; [None] when one of them does not return. *)
Fixpoint run (cap : nat) (ttl : Z) (os : list op) (c : cache) : option cache :=
  match os with
  | [] => Some c
  | o :: os' =>
      match exec cap ttl o c with
      | None => None
      | Some (_, c') => run cap ttl os' c'
      end
  end.

(** The cache of the source, with its constants. *)
Definition archive_cache_exec := exec ARCHIVE_CACHE_MAX_SIZE ARCHIVE_CACHE_TTL.

(** ** The representation invariant *)

Definition cache_inv (cap : nat) (c : cache) : Prop :=
  (∀ k, is_Some (_archiveStore c !! k) ↔ k ∈ _archiveOrder c) ∧
  NoDup (_archiveOrder c) ∧
  size (_archiveStore c) = length (_archiveOrder c) ∧
  (length (_archiveOrder c) <= cap)%nat.

(** ** Auxiliary functions used to state the results *)

(** The net effect of [indexOf] followed by a guarded [splice(idx, 1)]:
    the first occurrence of the key is removed. *)
Fixpoint remove_first (k : string) (l : list string) : list string :=
  match l with
  | [] => []
  | x :: r => if String.eqb x k then r else x :: remove_first k r
  end.

(** The store after [_archiveStore.delete] of each key of [ks] in turn. *)
Definition delete_keys (ks : list string) (m : gmap string jsobj)
  : gmap string jsobj :=
  foldl (fun m k => delete k m) m ks.

(** The order array of [setArchive] before its eviction loop. *)
Definition set_order0 (key : string) (c : cache) : list string :=
  if bool_decide (is_Some (_archiveStore c !! key))
  then remove_first key (_archiveOrder c) else _archiveOrder c.

(** The entry [{ ...value, timestamp: Date.now() }]. *)
Definition stamped (now : Z) (value : jsobj) : jsobj :=
  <["timestamp"%string := JNum now]> value.

(** The state after a run from the empty cache, for concrete runs. *)
Definition after (cap : nat) (ttl : Z) (os : list op) : cache :=
  match run cap ttl os empty_cache with Some c => c | None => empty_cache end.

Definition demo_ops : list op :=
  [OpSet 0 "a" ∅; OpSet 1 "b" {[ "archiveType" := JStr "zip" ]}; OpGet 2 "a";
   OpSet 3 "c" ∅; OpHas "b"; OpDelete "a"; OpStats].

Example ex_set_get :
  match setArchive 2 10 "a" {[ "buffer" := JBuffer [1;2] ]} empty_cache with
  | Some c => fst (getArchive 100 50 "a" c) =
              Some {[ "buffer" := JBuffer [1;2]; "timestamp" := JNum 10 ]}
  | None => False
  end.
Proof. vm_compute. reflexivity. Qed.

(** ** Array helpers *)

Lemma index_of_nat_None k l : index_of_nat k l = None -> remove_first k l = l.
Proof.
  induction l as [|x r IH]; simpl; [done|].
  destruct (String.eqb_spec x k); [done|].
  destruct (index_of_nat k r); simpl; [done|]. intros _. by rewrite IH.
Qed.

Lemma index_of_nat_Some k l n :
  index_of_nat k l = Some n -> take n l ++ drop (S n) l = remove_first k l.
Proof.
  revert n. induction l as [|x r IH]; intros n; simpl; [done|].
  destruct (String.eqb_spec x k).
  - by intros [= <-].
  - destruct (index_of_nat k r) as [m|] eqn:E; simpl; [|done].
    intros [= <-]. simpl. by rewrite (IH m).
Qed.

Lemma index_of_nat_None_iff k l : index_of_nat k l = None <-> k ∉ l.
Proof.
  induction l as [|x r IH]; simpl.
  - split; [intros _; apply not_elem_of_nil|done].
  - rewrite elem_of_cons. destruct (String.eqb_spec x k) as [->|Hne].
    + split; [done|]. intros H. exfalso. apply H. by left.
    + destruct (index_of_nat k r); simpl.
      * split; [done|]. intros H. exfalso.
        assert (k ∈ r). { destruct (decide (k ∈ r)); [done|]. by apply IH in n0. }
        apply H. by right.
      * split; [|done]. intros _ [->|Hin]; [done|]. by apply IH.
Qed.

(** The guarded [splice(indexOf(key), 1)] of the source removes the first
    occurrence of the key. *)
Lemma splice_indexOf l k :
  (if Z.ltb (-1) (indexOf l k) then splice1 l (indexOf l k) else l)
  = remove_first k l.
Proof.
  unfold indexOf, splice1.
  destruct (index_of_nat k l) as [n|] eqn:E.
  - replace (Z.ltb (-1) (Z.of_nat n)) with true by (symmetry; apply Z.ltb_lt; lia).
    rewrite Nat2Z.id. by apply index_of_nat_Some.
  - simpl. by rewrite index_of_nat_None.
Qed.

Lemma indexOf_found l k : Z.ltb (-1) (indexOf l k) = bool_decide (k ∈ l).
Proof.
  unfold indexOf. destruct (index_of_nat k l) as [n|] eqn:E.
  - rewrite bool_decide_eq_true_2; [apply Z.ltb_lt; lia|].
    destruct (decide (k ∈ l)) as [?|Hn]; [done|].
    apply index_of_nat_None_iff in Hn. congruence.
  - apply index_of_nat_None_iff in E. by rewrite bool_decide_eq_false_2.
Qed.

Lemma remove_first_notin k l : k ∉ l -> remove_first k l = l.
Proof. intros H. apply index_of_nat_None, index_of_nat_None_iff, H. Qed.

Lemma filter_notin k (l : list string) : k ∉ l -> filter (fun x => x ≠ k) l = l.
Proof.
  induction l as [|x r IH]; intros H; [done|].
  rewrite elem_of_cons in H.
  rewrite filter_cons_True; [|intros ->; apply H; by left].
  f_equal. apply IH. intros Hr. apply H. by right.
Qed.

Lemma remove_first_filter k l :
  NoDup l -> remove_first k l = filter (fun x => x ≠ k) l.
Proof.
  induction l as [|x r IH]; intros Hnd; [done|].
  apply NoDup_cons in Hnd as [Hx Hr]. simpl.
  destruct (String.eqb_spec x k) as [->|Hne].
  - rewrite filter_cons_False; [|by intros []]. by rewrite filter_notin.
  - rewrite filter_cons_True; [|done]. by rewrite IH.
Qed.

Lemma elem_of_remove_first k l j :
  NoDup l -> j ∈ remove_first k l <-> j ∈ l /\ j ≠ k.
Proof.
  intros Hnd. rewrite remove_first_filter by done.
  rewrite list_elem_of_filter. tauto.
Qed.

Lemma NoDup_remove_first k l : NoDup l -> NoDup (remove_first k l).
Proof. intros Hnd. rewrite remove_first_filter by done. by apply NoDup_filter. Qed.

Lemma length_remove_first k l : (length (remove_first k l) <= length l)%nat.
Proof.
  induction l as [|x r IH]; simpl; [lia|].
  destruct (String.eqb x k); simpl; lia.
Qed.

Lemma length_remove_first_in k l :
  k ∈ l -> length (remove_first k l) = pred (length l).
Proof.
  induction l as [|x r IH]; intros H; [by apply not_elem_of_nil in H|].
  simpl. destruct (String.eqb_spec x k) as [->|Hne]; [done|].
  apply elem_of_cons in H as [->|H]; [done|].
  simpl. rewrite IH by done. destruct r; [by apply not_elem_of_nil in H|done].
Qed.

Lemma lookup_delete_keys ks m j :
  delete_keys ks m !! j = if bool_decide (j ∈ ks) then None else m !! j.
Proof.
  unfold delete_keys. revert m. induction ks as [|x r IH]; intros m; cbn [foldl].
  - case_bool_decide as H; [by apply not_elem_of_nil in H|done].
  - rewrite IH. case_bool_decide as Hr; case_bool_decide as Hxr; try done.
    + exfalso. apply Hxr. by right.
    + apply elem_of_cons in Hxr as [->|?]; [|done]. by rewrite lookup_delete_eq.
    + rewrite lookup_delete_ne; [done|]. intros ->. apply Hxr. by left.
Qed.

(** ** The eviction loop *)

(** With capacity 0 the loop condition [length >= 0] always holds: no fuel
    is enough, the loop of the source never stops. *)
Lemma evict_loop_cap0_diverges fuel c : evict_loop fuel 0 c = None.
Proof.
  revert c. induction fuel as [|f IH]; intros c; [done|].
  simpl. destruct (shift (_archiveOrder c)). apply IH.
Qed.

(** More fuel does not change a result: [Some] is the loop's real outcome. *)
Lemma evict_loop_fuel_mono fuel fuel' cap c r :
  evict_loop fuel cap c = Some r -> (fuel <= fuel')%nat ->
  evict_loop fuel' cap c = Some r.
Proof.
  revert fuel' c. induction fuel as [|f IH]; intros fuel' c H Hle; [done|].
  destruct fuel' as [|f']; [lia|]. simpl in *.
  destruct (Nat.leb cap (length (_archiveOrder c))); [|done].
  destruct (shift (_archiveOrder c)). apply IH; [done|lia].
Qed.

Lemma evict_loop_exit fuel cap c r :
  evict_loop fuel cap c = Some r -> (length (_archiveOrder r) < cap)%nat.
Proof.
  revert c. induction fuel as [|f IH]; intros c H; [done|]. simpl in H.
  destruct (Nat.leb cap (length (_archiveOrder c))) eqn:E.
  - destruct (shift (_archiveOrder c)). by eapply IH.
  - injection H as <-. apply Nat.leb_gt in E. lia.
Qed.

(** For a positive capacity the loop shifts away the
    [length + 1 - cap] oldest keys and deletes them from the store. *)
Lemma evict_loop_spec fuel cap s o :
  (1 <= cap)%nat -> (length o < fuel)%nat ->
  evict_loop fuel cap (mkCache s o)
  = Some (mkCache (delete_keys (take (S (length o) - cap) o) s)
                  (drop (S (length o) - cap) o)).
Proof.
  intros Hcap. revert s o. induction fuel as [|f IH]; intros s o Hf; [lia|].
  simpl. destruct (Nat.leb cap (length o)) eqn:E.
  - apply Nat.leb_le in E. destruct o as [|x r]; simpl in E; [lia|].
    simpl. rewrite IH by (simpl in Hf; lia).
    replace (S (S (length r)) - cap)%nat with (S (S (length r) - cap)) by lia.
    done.
  - apply Nat.leb_gt in E.
    replace (S (length o) - cap)%nat with 0%nat by lia. done.
Qed.

(** ** [setArchive] *)

Lemma setArchive_fuel_unfold fuel cap now key v c :
  setArchive_fuel fuel cap now key v c =
  match evict_loop fuel cap (mkCache (_archiveStore c) (set_order0 key c)) with
  | None => None
  | Some c1 => Some (mkCache (<[key := stamped now v]> (_archiveStore c1))
                             (push (_archiveOrder c1) key))
  end.
Proof.
  unfold setArchive_fuel, set_order0, stamped. cbv zeta.
  by rewrite splice_indexOf.
Qed.

Lemma length_set_order0 key c :
  (length (set_order0 key c) <= length (_archiveOrder c))%nat.
Proof.
  unfold set_order0. case_bool_decide; [apply length_remove_first|lia].
Qed.

(** For a positive capacity [setArchive] returns, with this state. *)
Lemma setArchive_spec cap now key v c :
  (1 <= cap)%nat ->
  setArchive cap now key v c =
  Some (mkCache
          (<[key := stamped now v]>
             (delete_keys (take (S (length (set_order0 key c)) - cap) (set_order0 key c))
                          (_archiveStore c)))
          (drop (S (length (set_order0 key c)) - cap) (set_order0 key c) ++ [key])).
Proof.
  intros Hcap. unfold setArchive. rewrite setArchive_fuel_unfold.
  rewrite evict_loop_spec; [done|done|].
  pose proof (length_set_order0 key c). lia.
Qed.

(** [deleteArchive] removes the key from the store and its first
    occurrence from the order array. *)
Lemma deleteArchive_spec key c :
  deleteArchive key c =
  mkCache (delete key (_archiveStore c)) (remove_first key (_archiveOrder c)).
Proof. unfold deleteArchive. cbv zeta. by rewrite splice_indexOf. Qed.

Lemma getArchive_spec ttl now key c :
  getArchive ttl now key c =
  match _archiveStore c !! key with
  | None => (None, c)
  | Some item =>
      if ttl_expired ttl now item then (None, deleteArchive key c)
      else if bool_decide (key ∈ _archiveOrder c)
      then (Some item, mkCache (_archiveStore c)
                               (remove_first key (_archiveOrder c) ++ [key]))
      else (Some item, c)
  end.
Proof.
  unfold getArchive. destruct (_archiveStore c !! key) as [item|]; [|done].
  destruct (ttl_expired ttl now item); [done|]. cbv zeta.
  rewrite <- (splice_indexOf (_archiveOrder c) key), indexOf_found.
  by case_bool_decide.
Qed.

(** ** The representation invariant is preserved *)

Lemma inv_size (s : gmap string jsobj) (o : list string) :
  (∀ k, is_Some (s !! k) ↔ k ∈ o) -> NoDup o -> size s = length o.
Proof.
  intros Hk Hnd. rewrite <- (size_dom (D:=gset string) s).
  assert (dom s = list_to_set (C:=gset string) o) as ->.
  { apply set_eq. intros k. rewrite elem_of_dom, elem_of_list_to_set. apply Hk. }
  by apply size_list_to_set.
Qed.

Lemma elem_of_drop_NoDup (l : list string) n x :
  NoDup l -> x ∈ drop n l <-> x ∈ l /\ x ∉ take n l.
Proof.
  intros Hnd. rewrite <- (take_drop n l) in Hnd.
  apply NoDup_app in Hnd as (_ & Hdis & _).
  rewrite <- (take_drop n l) at 2. rewrite elem_of_app.
  split.
  - intros Hd. split; [by right|]. intros Ht. by apply (Hdis x).
  - intros [[Ht|Hd] Hnt]; done.
Qed.

Lemma NoDup_drop' (l : list string) n : NoDup l -> NoDup (drop n l).
Proof.
  intros Hnd. rewrite <- (take_drop n l) in Hnd.
  by apply NoDup_app in Hnd as (_ & _ & ?).
Qed.

Lemma elem_of_drop' (l : list string) n x : x ∈ drop n l -> x ∈ l.
Proof. intros H. rewrite <- (take_drop n l), elem_of_app. by right. Qed.

Lemma inv_empty cap : cache_inv cap empty_cache.
Proof.
  unfold cache_inv, empty_cache; simpl. split; [|split; [constructor|split; [done|lia]]].
  intros k. rewrite lookup_empty. split; [by intros []|intros H; by apply not_elem_of_nil in H].
Qed.

Lemma inv_delete cap key c : cache_inv cap c -> cache_inv cap (deleteArchive key c).
Proof.
  destruct c as [s o]. intros (Hk & Hnd & Hsz & Hcap). simpl in *.
  rewrite deleteArchive_spec. simpl.
  assert (Hk' : ∀ j, is_Some (delete key s !! j) ↔ j ∈ remove_first key o).
  { intros j. rewrite elem_of_remove_first by done.
    destruct (decide (j = key)) as [->|Hne].
    - rewrite lookup_delete_eq. split; [by intros []|tauto].
    - rewrite lookup_delete_ne by done. rewrite Hk. tauto. }
  split_and!; [done|apply NoDup_remove_first; done|idtac|idtac].
  { apply inv_size; [done|by apply NoDup_remove_first]. }
  simpl. pose proof (length_remove_first key o). lia.
Qed.

Lemma inv_get cap ttl now key c :
  cache_inv cap c -> cache_inv cap (snd (getArchive ttl now key c)).
Proof.
  intros Hinv. rewrite getArchive_spec.
  destruct (_archiveStore c !! key) as [item|] eqn:E; [|done].
  destruct (ttl_expired ttl now item); [by apply inv_delete|].
  case_bool_decide as Hin; [|done].
  destruct c as [s o]. destruct Hinv as (Hk & Hnd & Hsz & Hcap). simpl in *.
  assert (Hnd' : NoDup (remove_first key o ++ [key])).
  { apply NoDup_app. split_and!; [by apply NoDup_remove_first| |by apply NoDup_singleton].
    intros x Hx. rewrite elem_of_remove_first in Hx by done.
    rewrite list_elem_of_singleton. tauto. }
  assert (Hlen : length (remove_first key o ++ [key]) = length o).
  { rewrite length_app, length_remove_first_in by done. simpl.
    destruct o; [by apply not_elem_of_nil in Hin|simpl; lia]. }
  unfold cache_inv; simpl. split_and!; [|done| |lia].
  - intros j. rewrite Hk, elem_of_app, elem_of_remove_first, list_elem_of_singleton by done.
    destruct (decide (j = key)); [subst; tauto|tauto].
  - rewrite Hsz. lia.
Qed.


Lemma set_order0_facts cap key c :
  cache_inv cap c ->
  NoDup (set_order0 key c) /\ (key ∉ set_order0 key c) /\
  (∀ j, j ≠ key → (j ∈ set_order0 key c ↔ j ∈ _archiveOrder c)).
Proof.
  intros (Hk & Hnd & _). unfold set_order0. case_bool_decide as Hin.
  - split_and!; [by apply NoDup_remove_first| |].
    + rewrite elem_of_remove_first by done. tauto.
    + intros j Hj. rewrite elem_of_remove_first by done. tauto.
  - split_and!; [done| |done]. by rewrite <- Hk.
Qed.

(** After the eviction loop and the push the order array has at most
    [cap] keys. *)
Lemma length_after_set cap (o0 : list string) key :
  (1 <= cap)%nat ->
  (length (drop (S (length o0) - cap) o0 ++ [key]) <= cap)%nat.
Proof. intros Hcap. rewrite length_app, length_drop. simpl. lia. Qed.

Lemma inv_set cap now key v c c' :
  (1 <= cap)%nat -> cache_inv cap c ->
  setArchive cap now key v c = Some c' -> cache_inv cap c'.
Proof.
  intros Hcap Hinv. rewrite setArchive_spec by done. intros [= <-].
  pose proof (set_order0_facts cap key c Hinv) as (Hnd0 & Hk0 & Hj0).
  destruct Hinv as (Hk & Hnd & _ & _).
  set (o0 := set_order0 key c) in *.
  set (n := (S (length o0) - cap)%nat).
  assert (Hk' : ∀ j, is_Some (<[key := stamped now v]>
                               (delete_keys (take n o0) (_archiveStore c)) !! j)
                     ↔ j ∈ drop n o0 ++ [key]).
  { intros j. rewrite elem_of_app, list_elem_of_singleton.
    destruct (decide (j = key)) as [->|Hne].
    - rewrite lookup_insert_eq. split; [by right|by eauto].
    - rewrite lookup_insert_ne, lookup_delete_keys by done.
      rewrite elem_of_drop_NoDup by done. rewrite Hj0, <- Hk by done.
      case_bool_decide; split.
      + by intros [].
      + intros [[_ ?]|?]; done.
      + intros Hs. by left.
      + intros [[Hs _]|?]; done. }
  assert (Hnd' : NoDup (drop n o0 ++ [key])).
  { apply NoDup_app. split_and!; [by apply NoDup_drop'| |apply NoDup_singleton].
    intros x Hx. rewrite list_elem_of_singleton. intros ->.
    by apply Hk0, (elem_of_drop' _ n). }
  unfold cache_inv; simpl. split_and!; [done|done| |by apply length_after_set].
  by apply inv_size.
Qed.

Lemma setArchive_Some cap now key v c :
  (1 <= cap)%nat -> ∃ c', setArchive cap now key v c = Some c'.
Proof. intros Hcap. rewrite setArchive_spec by done. by eexists. Qed.

(** ** Runs of calls *)

Lemma run_app cap ttl os1 os2 c :
  run cap ttl (os1 ++ os2) c =
  match run cap ttl os1 c with Some c' => run cap ttl os2 c' | None => None end.
Proof.
  revert c. induction os1 as [|o os IH]; intros c; [done|]. simpl.
  destruct (exec cap ttl o c) as [[r c']|]; [apply IH|done].
Qed.

Lemma exec_inv cap ttl o c :
  (1 <= cap)%nat -> cache_inv cap c ->
  ∃ r c', exec cap ttl o c = Some (r, c') /\ cache_inv cap c'.
Proof.
  intros Hcap Hinv. destruct o as [now k|now k v|k|k|]; simpl.
  - destruct (getArchive ttl now k c) as [r c'] eqn:E.
    exists (RGet r), c'. split; [done|].
    pose proof (inv_get cap ttl now k c Hinv) as H. by rewrite E in H.
  - destruct (setArchive_Some cap now k v c Hcap) as [c' Hc'].
    rewrite Hc'. exists RUnit, c'. split; [done|]. by eapply inv_set.
  - eexists _, _. split; [done|]. by apply inv_delete.
  - by eexists _, _.
  - by eexists _, _.
Qed.

Lemma run_inv cap ttl os c :
  (1 <= cap)%nat -> cache_inv cap c ->
  ∃ c', run cap ttl os c = Some c' /\ cache_inv cap c'.
Proof.
  intros Hcap. revert c. induction os as [|o os IH]; intros c Hinv; simpl.
  - by exists c.
  - destruct (exec_inv cap ttl o c Hcap Hinv) as (r & c1 & -> & Hinv1). by apply IH.
Qed.

Lemma exec_inv_step cap ttl o c r c' :
  cache_inv cap c -> exec cap ttl o c = Some (r, c') -> cache_inv cap c'.
Proof.
  intros Hinv. destruct o as [now k|now k v|k|k|]; cbn [exec].
  - destruct (getArchive ttl now k c) as [r0 c0] eqn:E. intros [= _ <-].
    pose proof (inv_get cap ttl now k c Hinv) as H. by rewrite E in H.
  - destruct cap as [|cap].
    + unfold setArchive. rewrite setArchive_fuel_unfold, evict_loop_cap0_diverges. done.
    + destruct (setArchive (S cap) now k v c) as [c1|] eqn:E; [|done].
      intros [= _ <-]. eapply inv_set; [lia|exact Hinv|exact E].
  - intros [= _ <-]. by apply inv_delete.
  - by intros [= _ <-].
  - by intros [= _ <-].
Qed.

(** A state reached by a run from the empty cache satisfies the invariant. *)
Lemma reachable_inv cap ttl os c :
  run cap ttl os empty_cache = Some c -> cache_inv cap c.
Proof.
  pose proof (inv_empty cap) as H0. revert H0. generalize empty_cache as c0.
  induction os as [|o os IH]; intros c0 H0; cbn [run]; [by intros [= <-]|].
  destruct (exec cap ttl o c0) as [[r c1]|] eqn:E; [|done].
  apply IH. by eapply exec_inv_step.
Qed.

(** Every entry in the store carries a numeric [timestamp]. *)
Definition entries_stamped (c : cache) : Prop :=
  ∀ k e, _archiveStore c !! k = Some e -> ∃ t, e !! "timestamp"%string = Some (JNum t).

Lemma stamped_delete key c : entries_stamped c -> entries_stamped (deleteArchive key c).
Proof.
  rewrite deleteArchive_spec. intros H k e. simpl.
  destruct (decide (k = key)) as [->|Hne].
  - by rewrite lookup_delete_eq.
  - rewrite lookup_delete_ne by done. apply H.
Qed.

Lemma stamped_evict fuel cap c0 c1 :
  entries_stamped c0 -> evict_loop fuel cap c0 = Some c1 -> entries_stamped c1.
Proof.
  revert c0. induction fuel as [|f IH]; intros c0 H0 E; [done|]. simpl in E.
  destruct (Nat.leb cap (length (_archiveOrder c0))).
  - destruct (shift (_archiveOrder c0)) as [[x|] rest]; (eapply IH; [|exact E]).
    + intros k e. cbn [_archiveStore map_delete_opt]. destruct (decide (k = x)) as [->|Hne].
      * by rewrite lookup_delete_eq.
      * rewrite lookup_delete_ne by done. apply H0.
    + apply H0.
  - injection E as <-. apply H0.
Qed.

Lemma stamped_exec cap ttl o c r c' :
  entries_stamped c -> exec cap ttl o c = Some (r, c') -> entries_stamped c'.
Proof.
  intros H. destruct o as [now k|now k v|k|k|]; simpl.
  - rewrite getArchive_spec. destruct (_archiveStore c !! k) as [item|]; [|by intros [= _ <-]].
    destruct (ttl_expired ttl now item); [intros [= _ <-]; by apply stamped_delete|].
    case_bool_decide; intros [= _ <-]; done.
  - unfold setArchive. rewrite setArchive_fuel_unfold.
    destruct (evict_loop _ _ _) as [c1|] eqn:E; [|done]. intros [= _ <-].
    intros j e. simpl. destruct (decide (j = k)) as [->|Hne].
    + rewrite lookup_insert_eq. intros [= <-]. exists now. apply lookup_insert_eq.
    + rewrite lookup_insert_ne by done.
      apply (stamped_evict _ _ (mkCache (_archiveStore c) (set_order0 k c)) _ H E).
  - intros [= _ <-]. by apply stamped_delete.
  - by intros [= _ <-].
  - by intros [= _ <-].
Qed.

Lemma reachable_stamped cap ttl os c :
  run cap ttl os empty_cache = Some c -> entries_stamped c.
Proof.
  assert (H0 : entries_stamped empty_cache) by (intros k e; simpl; by rewrite lookup_empty).
  revert H0. generalize empty_cache as c0.
  induction os as [|o os IH]; intros c0 H0; simpl; [by intros [= <-]|].
  destruct (exec cap ttl o c0) as [[r c1]|] eqn:E; [|done].
  apply IH. by eapply stamped_exec.
Qed.

(** ** [setArchive] from a state satisfying the invariant *)

Lemma set_present cap now key v c :
  (1 <= cap)%nat -> cache_inv cap c -> is_Some (_archiveStore c !! key) ->
  setArchive cap now key v c =
  Some (mkCache (<[key := stamped now v]> (_archiveStore c))
                (remove_first key (_archiveOrder c) ++ [key])).
Proof.
  intros Hcap Hinv Hin. rewrite setArchive_spec by done.
  destruct Hinv as (Hk & _ & _ & Hlen).
  unfold set_order0. rewrite bool_decide_eq_true_2 by done.
  apply Hk in Hin. rewrite length_remove_first_in by done.
  destruct (_archiveOrder c) as [|x r]; [by apply not_elem_of_nil in Hin|].
  simpl in *. replace (S (length r) - cap)%nat with 0%nat by lia. done.
Qed.

Lemma set_fresh_room cap now key v c :
  cache_inv cap c -> _archiveStore c !! key = None ->
  (length (_archiveOrder c) < cap)%nat ->
  setArchive cap now key v c =
  Some (mkCache (<[key := stamped now v]> (_archiveStore c)) (_archiveOrder c ++ [key])).
Proof.
  intros Hinv Hnone Hlen. rewrite setArchive_spec by lia.
  unfold set_order0. rewrite bool_decide_eq_false_2 by (rewrite Hnone; by intros []).
  replace (S (length (_archiveOrder c)) - cap)%nat with 0%nat by lia. done.
Qed.

Lemma set_fresh_full cap now key v c x r :
  (1 <= cap)%nat -> _archiveStore c !! key = None ->
  _archiveOrder c = x :: r -> length (_archiveOrder c) = cap ->
  setArchive cap now key v c =
  Some (mkCache (<[key := stamped now v]> (delete x (_archiveStore c))) (r ++ [key])).
Proof.
  intros Hcap Hnone Ho Hlen. rewrite setArchive_spec by done.
  unfold set_order0. rewrite bool_decide_eq_false_2 by (rewrite Hnone; by intros []).
  rewrite Ho in *. replace (S (length (x :: r)) - cap)%nat with 1%nat by (simpl in *; lia).
  done.
Qed.

(** Under the invariant the eviction loop tests its condition at most
    twice: at most one key is evicted. *)
Lemma evict_loop_two cap s o :
  (1 <= cap)%nat -> (length o <= cap)%nat ->
  evict_loop 2 cap (mkCache s o)
  = Some (mkCache (delete_keys (take (S (length o) - cap) o) s)
                  (drop (S (length o) - cap) o)).
Proof.
  intros Hcap Hlen. simpl. destruct (Nat.leb cap (length o)) eqn:E.
  - apply Nat.leb_le in E. destruct o as [|x r]; simpl in *; [lia|].
    destruct (Nat.leb cap (length r)) eqn:E2; [apply Nat.leb_le in E2; lia|].
    replace (S (S (length r)) - cap)%nat with 1%nat by lia. done.
  - apply Nat.leb_gt in E. replace (S (length o) - cap)%nat with 0%nat by lia. done.
Qed.

Lemma filter_all_id (P : string -> Prop) `{!∀ x, Decision (P x)} (l : list string) :
  (∀ x, x ∈ l -> P x) -> filter P l = l.
Proof.
  induction l as [|x r IH]; intros Hall; [done|].
  rewrite filter_cons_True by (apply Hall; by left).
  f_equal. apply IH. intros y Hy. apply Hall. by right.
Qed.

(** A run of [set] calls on fresh keys with room for all of them appends
    them to the order array. *)
Lemma run_fresh_sets cap ttl (now : string -> Z) (val : string -> jsobj) ks c :
  cache_inv cap c -> NoDup (_archiveOrder c ++ ks) ->
  (length (_archiveOrder c ++ ks) <= cap)%nat ->
  ∃ c', run cap ttl (map (fun k => OpSet (now k) k (val k)) ks) c = Some c' /\
        cache_inv cap c' /\ _archiveOrder c' = _archiveOrder c ++ ks.
Proof.
  revert c. induction ks as [|k ks IH]; intros c Hinv Hnd Hlen.
  - exists c. by rewrite app_nil_r.
  - assert (Hnone : _archiveStore c !! k = None).
    { destruct (_archiveStore c !! k) eqn:E; [|done]. exfalso.
      destruct Hinv as (Hk & _). assert (Hin : k ∈ _archiveOrder c) by (apply Hk; by eexists).
      apply NoDup_app in Hnd as (_ & Hdis & _). apply (Hdis k Hin). by left. }
    assert (Hroom : (length (_archiveOrder c) < cap)%nat)
      by (rewrite length_app in Hlen; simpl in Hlen; lia).
    pose proof (set_fresh_room cap (now k) k (val k) c Hinv Hnone Hroom) as Hs.
    cbn [map run exec]. rewrite Hs. cbn [option_map].
    assert (Hinv' : cache_inv cap (mkCache (<[k := stamped (now k) (val k)]> (_archiveStore c))
                                            (_archiveOrder c ++ [k]))).
    { eapply inv_set; [lia|exact Hinv|]. apply set_fresh_room; done. }
    destruct (IH _ Hinv') as (c' & Hr & Hinv'' & Ho).
    + simpl. by rewrite <- app_assoc.
    + simpl. rewrite <- app_assoc. done.
    + exists c'. split_and!; [done|done|]. rewrite Ho. simpl. by rewrite <- app_assoc.
Qed.

(** What [setArchive] leaves behind when it returns. *)
Lemma setArchive_post cap now key v c c' :
  setArchive cap now key v c = Some c' ->
  (length (_archiveOrder c') <= cap)%nat /\
  last (_archiveOrder c') = Some key /\
  _archiveStore c' !! key = Some (stamped now v) /\
  stamped now v !! "timestamp"%string = Some (JNum now) /\
  (∀ ttl t, t - now <= ttl -> fst (getArchive ttl t key c') = Some (stamped now v)).
Proof.
  unfold setArchive. rewrite setArchive_fuel_unfold.
  destruct (evict_loop _ _ _) as [c1|] eqn:E; [|done]. intros [= <-].
  pose proof (evict_loop_exit _ _ _ _ E) as Hlen.
  assert (Hts : stamped now v !! "timestamp"%string = Some (JNum now))
    by (unfold stamped; apply lookup_insert_eq).
  cbn [_archiveOrder _archiveStore]. unfold push.
  split_and!.
  - rewrite length_app. simpl. lia.
  - apply last_snoc.
  - apply lookup_insert_eq.
  - done.
  - intros ttl t Ht. rewrite getArchive_spec. cbn [_archiveStore _archiveOrder].
    rewrite lookup_insert_eq.
    replace (ttl_expired ttl t (stamped now v)) with false
      by (unfold ttl_expired; rewrite Hts; symmetry; apply Z.ltb_ge; lia).
    by case_bool_decide.
Qed.

(** * The claims *)

(** C1. After every completed call (get, set, delete, has, stats) from the
    empty cache, the keys of the order array are exactly the keys of the
    store, no key occurs twice in it, the size of the store equals its
    length, which is at most the capacity; and the keys listed by
    [stats().keys] are exactly those for which [has] is true. *)
Theorem C1_order_store_consistent cap ttl os :
  (1 <= cap)%nat ->
  ∃ c, run cap ttl os empty_cache = Some c /\
       (∀ k, is_Some (_archiveStore c !! k) ↔ k ∈ _archiveOrder c) /\
       NoDup (_archiveOrder c) /\
       size (_archiveStore c) = length (_archiveOrder c) /\
       (length (_archiveOrder c) <= cap)%nat /\
       (∀ k, k ∈ st_keys (getArchiveCacheStats cap c) ↔ has k c = true).
Proof.
  intros Hcap.
  destruct (run_inv cap ttl os empty_cache Hcap (inv_empty cap)) as (c & Hrun & Hinv).
  exists c. destruct Hinv as (Hk & Hnd & Hsz & Hlen).
  split_and!; try done. intros k. simpl. unfold has. rewrite bool_decide_eq_true.
  symmetry. apply Hk.
Qed.

Lemma C1_witness :
  (1 <= 2)%nat /\ ∃ c, run 2 100 demo_ops empty_cache = Some c.
Proof.
  split; [lia|].
  destruct (C1_order_store_consistent 2 100 demo_ops) as (c & Hrun & _); [lia|].
  by exists c.
Defined.

(** C2. When [set(key, value)] returns, the order array has at most
    [cap] keys, the key is at its most-recently-used end, and the store
    holds [{ ...value, timestamp: now }] for it: the TTL restarts at the
    call, so a [get] at most [ttl] later returns the new entry. *)
Theorem C2_set_mru_fresh_timestamp cap now key v c c' :
  setArchive cap now key v c = Some c' ->
  (length (_archiveOrder c') <= cap)%nat /\
  last (_archiveOrder c') = Some key /\
  _archiveStore c' !! key = Some (stamped now v) /\
  stamped now v !! "timestamp"%string = Some (JNum now) /\
  (∀ ttl t, t - now <= ttl -> fst (getArchive ttl t key c') = Some (stamped now v)).
Proof. apply setArchive_post. Qed.

(** Overwrite at 90 of a key set at 0: with a TTL of 100, a [get] at 100
    returns the new value, unexpired. *)
Lemma C2_witness :
  setArchive 30 90 "k" {[ "archiveType" := JStr "rar" ]}
    (after 30 100 [OpSet 0 "k" {[ "archiveType" := JStr "zip" ]}])
  = Some (after 30 100 [OpSet 0 "k" {[ "archiveType" := JStr "zip" ]};
                        OpSet 90 "k" {[ "archiveType" := JStr "rar" ]}]) /\
  fst (getArchive 100 100 "k"
         (after 30 100 [OpSet 0 "k" {[ "archiveType" := JStr "zip" ]};
                        OpSet 90 "k" {[ "archiveType" := JStr "rar" ]}]))
  = Some (stamped 90 {[ "archiveType" := JStr "rar" ]}).
Proof.
  assert (H : setArchive 30 90 "k" {[ "archiveType" := JStr "rar" ]}
    (after 30 100 [OpSet 0 "k" {[ "archiveType" := JStr "zip" ]}])
  = Some (after 30 100 [OpSet 0 "k" {[ "archiveType" := JStr "zip" ]};
                        OpSet 90 "k" {[ "archiveType" := JStr "rar" ]}]))
    by (vm_compute; reflexivity).
  split; [exact H|].
  destruct (C2_set_mru_fresh_timestamp _ _ _ _ _ _ H) as (_ & _ & _ & _ & Hget).
  apply Hget. lia.
Defined.

(** C3. In every reachable state: [get] of a missing key returns [null]
    and changes nothing; an entry whose age [now - timestamp] exceeds the
    TTL is removed from the store and from the order array and [null] is
    returned; any other entry is returned, its key moved to the
    most-recently-used end of the order array, and the store (with the
    entry's timestamp) left as it was. *)
Theorem C3_get_spec cap ttl os c now key :
  run cap ttl os empty_cache = Some c ->
  (_archiveStore c !! key = None -> getArchive ttl now key c = (None, c)) /\
  (∀ e, _archiveStore c !! key = Some e ->
     ∃ t, e !! "timestamp"%string = Some (JNum t) /\
     (ttl < now - t ->
        getArchive ttl now key c =
          (None, mkCache (delete key (_archiveStore c))
                         (filter (fun k => k ≠ key) (_archiveOrder c))) /\
        has key (snd (getArchive ttl now key c)) = false /\
        key ∉ _archiveOrder (snd (getArchive ttl now key c))) /\
     (now - t <= ttl ->
        getArchive ttl now key c =
          (Some e, mkCache (_archiveStore c)
                           (filter (fun k => k ≠ key) (_archiveOrder c) ++ [key])))).
Proof.
  intros Hrun.
  pose proof (reachable_inv _ _ _ _ Hrun) as Hinv.
  pose proof (reachable_stamped _ _ _ _ Hrun) as Hst.
  destruct Hinv as (Hk & Hnd & _ & _).
  split.
  - intros Hnone. rewrite getArchive_spec, Hnone. done.
  - intros e He. destruct (Hst key e He) as [t Ht]. exists t.
    split_and!; [done| |].
    + intros Hexp.
      assert (Hget : getArchive ttl now key c =
          (None, mkCache (delete key (_archiveStore c))
                         (filter (fun k => k ≠ key) (_archiveOrder c)))).
      { rewrite getArchive_spec, He.
        replace (ttl_expired ttl now e) with true
          by (unfold ttl_expired; rewrite Ht; symmetry; apply Z.ltb_lt; lia).
        rewrite deleteArchive_spec, remove_first_filter by done. done. }
      rewrite Hget. cbn [snd _archiveStore _archiveOrder]. split_and!; [done| |].
      * unfold has. cbn [_archiveStore]. rewrite lookup_delete_eq.
        apply bool_decide_eq_false. by intros [].
      * rewrite list_elem_of_filter. tauto.
    + intros Hfresh. rewrite getArchive_spec, He.
      replace (ttl_expired ttl now e) with false
        by (unfold ttl_expired; rewrite Ht; symmetry; apply Z.ltb_ge; lia).
      rewrite bool_decide_eq_true_2 by (apply Hk; by eexists).
      by rewrite remove_first_filter.
Qed.

Lemma C3_witness :
  run 2 100 [OpSet 0 "a" ∅; OpSet 1 "b" ∅] empty_cache
    = Some (after 2 100 [OpSet 0 "a" ∅; OpSet 1 "b" ∅]) /\
  getArchive 100 50 "a" (after 2 100 [OpSet 0 "a" ∅; OpSet 1 "b" ∅])
    = (Some (stamped 0 ∅),
       mkCache (_archiveStore (after 2 100 [OpSet 0 "a" ∅; OpSet 1 "b" ∅]))
               (filter (fun k => k ≠ "a"%string)
                  (_archiveOrder (after 2 100 [OpSet 0 "a" ∅; OpSet 1 "b" ∅])) ++ ["a"%string])).
Proof.
  assert (H : run 2 100 [OpSet 0 "a" ∅; OpSet 1 "b" ∅] empty_cache
                = Some (after 2 100 [OpSet 0 "a" ∅; OpSet 1 "b" ∅]))
    by (vm_compute; reflexivity).
  split; [exact H|].
  destruct (C3_get_spec _ _ _ _ 50 "a" H) as [_ Hpresent].
  destruct (Hpresent (stamped 0 ∅)) as (t & Ht & _ & Hfresh); [vm_compute; reflexivity|].
  assert (t = 0) as -> by (vm_compute in Ht; congruence).
  apply Hfresh. lia.
Defined.

(** C4. Eviction removes the least recently used key and a successful
    [get] refreshes recency: setting distinct keys [k1 .. k_(cap+1)] in
    order from the empty cache evicts [k1] and keeps [k_(cap+1)]; with
    capacity 2, [set k1; set k2; get k1; set k3] evicts [k2], not [k1]. *)
Theorem C4_lru_eviction :
  (∀ cap ttl (ks : list string) k1 kl (now : string -> Z) (val : string -> jsobj),
     (1 <= cap)%nat -> NoDup ks -> length ks = S cap ->
     head ks = Some k1 -> last ks = Some kl ->
     ∃ c, run cap ttl (map (fun k => OpSet (now k) k (val k)) ks) empty_cache = Some c /\
          has k1 c = false /\ has kl c = true) /\
  (∀ ttl (k1 k2 k3 : string) v1 v2 v3 t1 t2 t3 t4,
     k1 ≠ k2 -> k1 ≠ k3 -> k2 ≠ k3 -> t3 - t1 <= ttl ->
     ∃ c, run 2 ttl [OpSet t1 k1 v1; OpSet t2 k2 v2; OpGet t3 k1; OpSet t4 k3 v3]
              empty_cache = Some c /\
          has k2 c = false /\ has k1 c = true /\ has k3 c = true).
Proof.
  split.
  - intros cap ttl ks k1 kl now val Hcap Hnd Hlen Hhd Hlast.
    apply last_Some in Hlast as [firsts ->].
    rewrite length_app in Hlen. simpl in Hlen.
    pose proof Hnd as Hnd'. apply NoDup_app in Hnd' as (Hndf & Hdis & _).
    destruct (run_fresh_sets cap ttl now val firsts empty_cache (inv_empty cap))
      as (c & Hrun & Hinv & Ho); [done|simpl; lia|].
    simpl in Ho.
    destruct firsts as [|x r]; [simpl in Hlen; lia|].
    simpl in Hhd. injection Hhd as ->.
    assert (Hkl : kl ∉ k1 :: r) by (intros Hin; by apply (Hdis kl Hin); left).
    assert (Hnone : _archiveStore c !! kl = None).
    { destruct (_archiveStore c !! kl) eqn:E; [|done]. exfalso. apply Hkl.
      rewrite <- Ho. apply (proj1 Hinv kl). by eexists. }
    pose proof (set_fresh_full cap (now kl) kl (val kl) c k1 r Hcap Hnone Ho)
      as Hset.
    rewrite Ho in Hset. specialize (Hset ltac:(simpl in *; lia)).
    rewrite map_app, run_app, Hrun. cbn [map run exec]. rewrite Hset.
    cbn [option_map]. eexists. split; [reflexivity|].
    unfold has. cbn [_archiveStore]. split.
    + apply bool_decide_eq_false. rewrite lookup_insert_ne.
      * rewrite lookup_delete_eq. by intros [].
      * intros ->. apply Hkl. by left.
    + apply bool_decide_eq_true. rewrite lookup_insert_eq. by eexists.
  - intros ttl k1 k2 k3 v1 v2 v3 t1 t2 t3 t4 H12 H13 H23 Httl.
    cbn [run exec].
    rewrite (set_fresh_room 2 t1 k1 v1 empty_cache (inv_empty 2)) by (simpl; try lia;
      apply lookup_empty).
    cbn [option_map empty_cache _archiveStore _archiveOrder app].
    assert (Hinv1 : cache_inv 2 (mkCache (<[k1:=stamped t1 v1]> ∅) [k1])).
    { eapply inv_set; [lia|apply (inv_empty 2)|].
      apply set_fresh_room; [apply inv_empty|apply lookup_empty|simpl; lia]. }
    rewrite (set_fresh_room 2 t2 k2 v2 _ Hinv1)
      by (simpl; try lia; rewrite lookup_insert_ne by done; apply lookup_empty).
    cbn [option_map _archiveStore _archiveOrder app].
    rewrite getArchive_spec. cbn [_archiveStore _archiveOrder].
    rewrite lookup_insert_ne, lookup_insert_eq by done.
    replace (ttl_expired ttl t3 (stamped t1 v1)) with false
      by (unfold ttl_expired, stamped; rewrite lookup_insert_eq;
          symmetry; apply Z.ltb_ge; lia).
    rewrite bool_decide_eq_true_2 by (by left).
    cbn [remove_first]. rewrite String.eqb_refl. cbn [app].
    set (s2 := <[k2:=stamped t2 v2]> (<[k1:=stamped t1 v1]> (∅ : gmap string jsobj))).
    rewrite (set_fresh_full 2 t4 k3 v3 (mkCache s2 [k2; k1]) k2 [k1])
      by (done || lia || (unfold s2; cbn [_archiveStore];
                   rewrite !lookup_insert_ne by done; apply lookup_empty)).
    cbn [option_map]. eexists. split; [reflexivity|].
    unfold has, s2. cbn [_archiveStore]. split_and!.
    + apply bool_decide_eq_false. rewrite lookup_insert_ne by done.
      rewrite lookup_delete_eq. by intros [].
    + apply bool_decide_eq_true. rewrite lookup_insert_ne by done.
      rewrite lookup_delete_ne by done. rewrite lookup_insert_ne by done.
      rewrite lookup_insert_eq. by eexists.
    + apply bool_decide_eq_true. rewrite lookup_insert_eq. by eexists.
Qed.

Lemma C4_witness :
  (∃ c, run 2 100 (map (fun k => OpSet 0 k ∅) ["a"; "b"; "c"]%string) empty_cache = Some c /\
        has "a" c = false /\ has "c" c = true) /\
  (∃ c, run 2 100 [OpSet 0 "a" ∅; OpSet 1 "b" ∅; OpGet 2 "a"; OpSet 3 "c" ∅]
            empty_cache = Some c /\
        has "b" c = false /\ has "a" c = true /\ has "c" c = true).
Proof.
  split.
  - apply (proj1 C4_lru_eviction 2%nat 100 ["a"; "b"; "c"]%string "a" "c"
             (fun _ => 0) (fun _ => ∅)); [lia| |reflexivity|reflexivity|reflexivity].
    apply (bool_decide_unpack _). vm_compute. exact I.
  - apply (proj2 C4_lru_eviction 100 "a" "b" "c" ∅ ∅ ∅ 0 1 2 3);
      [apply (bool_decide_unpack _); vm_compute; exact I ..|lia].
Defined.

(** For every capacity of at least 1 (the source's is 30), in every
    reachable state [set] returns after at most two tests of its eviction
    loop (at most one eviction), and leaves at most [cap] entries in the
    store. *)
Theorem set_terminates_two_tests cap ttl os c now key v :
  (1 <= cap)%nat -> run cap ttl os empty_cache = Some c ->
  ∃ c', setArchive_fuel 2 cap now key v c = Some c' /\
        setArchive cap now key v c = Some c' /\
        (size (_archiveStore c') <= cap)%nat.
Proof.
  intros Hcap Hrun. pose proof (reachable_inv _ _ _ _ Hrun) as Hinv.
  pose proof (length_set_order0 key c) as Hl0.
  assert (Hlen : (length (set_order0 key c) <= cap)%nat)
    by (destruct Hinv as (_ & _ & _ & ?); lia).
  destruct (setArchive_Some cap now key v c Hcap) as [c' Hc'].
  exists c'. split_and!.
  - rewrite setArchive_fuel_unfold, evict_loop_two by done.
    rewrite setArchive_spec in Hc' by done. exact Hc'.
  - done.
  - destruct (inv_set _ _ _ _ _ _ Hcap Hinv Hc') as (_ & _ & -> & ?). done.
Qed.

Lemma set_terminates_two_tests_witness :
  (1 <= 2)%nat /\ run 2 100 demo_ops empty_cache = Some (after 2 100 demo_ops) /\
  ∃ c', setArchive_fuel 2 2 5 "d" ∅ (after 2 100 demo_ops) = Some c'.
Proof.
  assert (H : run 2 100 demo_ops empty_cache = Some (after 2 100 demo_ops))
    by (vm_compute; reflexivity).
  split_and!; [lia|exact H|].
  destruct (set_terminates_two_tests 2 100 demo_ops (after 2 100 demo_ops) 5 "d" ∅)
    as (c' & Hf & _);
    [lia|exact H|].
  by exists c'.
Defined.

(** C6 (as stated: every caller field, a [timestamp] field included, comes
    back from [get] unchanged).  The spread [{ ...value, timestamp: now }]
    overrides a caller-supplied [timestamp]. *)
Lemma C6_caller_timestamp_overwritten :
  fst (getArchive ARCHIVE_CACHE_TTL 5 "k"
         (after 30 ARCHIVE_CACHE_TTL [OpSet 5 "k" {[ "timestamp" := JStr "caller" ]}]))
    = Some (stamped 5 {[ "timestamp" := JStr "caller" ]}) /\
  stamped 5 {[ "timestamp" := JStr "caller" ]} !! "timestamp"%string
    ≠ ({[ "timestamp" := JStr "caller" ]} : jsobj) !! "timestamp"%string.
Proof. split; vm_compute; [reflexivity|discriminate]. Qed.

(** C6 (amended). [set(key, value)] stores every caller field other than
    [timestamp] unchanged, sets [timestamp] to the time of the call
    (overriding any caller-supplied [timestamp]), and a [get] at most [ttl]
    later returns that entry. *)
Theorem C6_set_copies_fields_but_timestamp cap now key v c c' :
  setArchive cap now key v c = Some c' ->
  ∃ e, _archiveStore c' !! key = Some e /\
       e !! "timestamp"%string = Some (JNum now) /\
       (∀ f, f ≠ "timestamp"%string -> e !! f = v !! f) /\
       (∀ ttl t, t - now <= ttl -> fst (getArchive ttl t key c') = Some e).
Proof.
  intros H. destruct (setArchive_post _ _ _ _ _ _ H) as (_ & _ & Hk & Hts & Hget).
  exists (stamped now v). split_and!; [done|done| |done].
  intros f Hf. unfold stamped. by rewrite lookup_insert_ne by congruence.
Qed.

Lemma C6_witness :
  setArchive 30 5 "k" {[ "buffer" := JBuffer [80; 75] ]} empty_cache
    = Some (after 30 100 [OpSet 5 "k" {[ "buffer" := JBuffer [80; 75] ]}]) /\
  ∃ e, _archiveStore (after 30 100 [OpSet 5 "k" {[ "buffer" := JBuffer [80; 75] ]}])
         !! "k"%string = Some e /\
       e !! "buffer"%string = Some (JBuffer [80; 75]).
Proof.
  assert (H : setArchive 30 5 "k" {[ "buffer" := JBuffer [80; 75] ]} empty_cache
    = Some (after 30 100 [OpSet 5 "k" {[ "buffer" := JBuffer [80; 75] ]}]))
    by (vm_compute; reflexivity).
  split; [exact H|].
  destruct (C6_set_copies_fields_but_timestamp _ _ _ _ _ _ H) as (e & He & _ & Hf & _).
  exists e. split; [exact He|]. rewrite Hf; [reflexivity|discriminate].
Defined.

(** C7. [has(key)] is raw presence in the store, whatever the entry's age:
    a [set] makes it true, an expired entry that has not been read still
    answers true, and only the [get] that finds it expired makes it false. *)
Theorem C7_has_ignores_ttl key c :
  (has key c = true <-> is_Some (_archiveStore c !! key)) /\
  (∀ cap now v c', setArchive cap now key v c = Some c' -> has key c' = true) /\
  (∀ ttl now e t, _archiveStore c !! key = Some e ->
     e !! "timestamp"%string = Some (JNum t) -> ttl < now - t ->
     has key c = true /\ fst (getArchive ttl now key c) = None /\
     has key (snd (getArchive ttl now key c)) = false).
Proof.
  unfold has. split_and!.
  - apply bool_decide_eq_true.
  - intros cap now v c' H. destruct (setArchive_post _ _ _ _ _ _ H) as (_ & _ & Hk & _).
    apply bool_decide_eq_true. rewrite Hk. by eexists.
  - intros ttl now e t He Ht Hexp.
    assert (Hget : getArchive ttl now key c = (None, deleteArchive key c)).
    { rewrite getArchive_spec, He.
      replace (ttl_expired ttl now e) with true
        by (unfold ttl_expired; rewrite Ht; symmetry; apply Z.ltb_lt; lia).
      done. }
    rewrite Hget. cbn [fst snd]. rewrite deleteArchive_spec. cbn [_archiveStore].
    split_and!.
    + apply bool_decide_eq_true. rewrite He. by eexists.
    + done.
    + apply bool_decide_eq_false. rewrite lookup_delete_eq. by intros [].
Qed.

(** With a TTL of 100: set at 0, [has] is true; at 150 [get] returns
    [null] and [has] is false afterwards. *)
Lemma C7_witness :
  has "k" (after 30 100 [OpSet 0 "k" ∅]) = true /\
  fst (getArchive 100 150 "k" (after 30 100 [OpSet 0 "k" ∅])) = None /\
  has "k" (snd (getArchive 100 150 "k" (after 30 100 [OpSet 0 "k" ∅]))) = false.
Proof.
  apply (proj2 (proj2 (C7_has_ignores_ttl "k" (after 30 100 [OpSet 0 "k" ∅])))
           100 150 (stamped 0 ∅) 0);
    [vm_compute; reflexivity|vm_compute; reflexivity|lia].
Defined.

(** C8. In every reachable state, [delete(key)] removes the key from the
    store and the order array; on a missing key it changes nothing (the
    size in particular); two deletes of a key equal one. *)
Theorem C8_delete_noop_idempotent cap ttl os c key :
  run cap ttl os empty_cache = Some c ->
  deleteArchive key c = mkCache (delete key (_archiveStore c))
                                (filter (fun k => k ≠ key) (_archiveOrder c)) /\
  (_archiveStore c !! key = None ->
     deleteArchive key c = c /\
     st_size (getArchiveCacheStats cap (deleteArchive key c))
       = st_size (getArchiveCacheStats cap c)) /\
  deleteArchive key (deleteArchive key c) = deleteArchive key c.
Proof.
  intros Hrun. destruct (reachable_inv _ _ _ _ Hrun) as (Hk & Hnd & _ & _).
  assert (Hdel : deleteArchive key c = mkCache (delete key (_archiveStore c))
                   (filter (fun k => k ≠ key) (_archiveOrder c)))
    by (rewrite deleteArchive_spec, remove_first_filter by done; done).
  assert (Hnone : _archiveStore c !! key = None -> deleteArchive key c = c).
  { intros Hn. rewrite deleteArchive_spec, delete_id by done.
    rewrite remove_first_notin; [by destruct c|].
    rewrite <- Hk, Hn. by intros []. }
  split_and!; [done| |].
  - intros Hn. split; [by apply Hnone|]. by rewrite (Hnone Hn).
  - rewrite Hdel, deleteArchive_spec. cbn [_archiveStore _archiveOrder].
    rewrite delete_delete_eq, remove_first_notin; [done|].
    rewrite list_elem_of_filter. tauto.
Qed.

Lemma C8_witness :
  run 2 100 demo_ops empty_cache = Some (after 2 100 demo_ops) /\
  deleteArchive "zz" (after 2 100 demo_ops) = after 2 100 demo_ops.
Proof.
  assert (H : run 2 100 demo_ops empty_cache = Some (after 2 100 demo_ops))
    by (vm_compute; reflexivity).
  split; [exact H|].
  apply (proj1 (proj2 (C8_delete_noop_idempotent _ _ _ _ "zz" H))).
  vm_compute. reflexivity.
Defined.

(** C10. [has(key)] has no side effect: the call returns the state it was
    given, store, order array and entries (timestamps included) unchanged,
    expired entries included. *)
Theorem C10_has_no_side_effect cap ttl key c :
  exec cap ttl (OpHas key) c = Some (RHas (has key c), c).
Proof. reflexivity. Qed.

(** C9. From a reachable state with capacity at least 1, [set(key, value)]
    evicts at most one key other than [key]: the least recently used one,
    and only when [key] is new and the cache is full.  Every other entry
    is left as it was, and the other keys keep their relative order. *)
Theorem C9_set_frame cap ttl os c now key v :
  (1 <= cap)%nat -> run cap ttl os empty_cache = Some c ->
  ∃ c' (ev : option string),
    setArchive cap now key v c = Some c' /\
    (ev = None \/ (ev = head (_archiveOrder c) /\ _archiveStore c !! key = None /\
                   length (_archiveOrder c) = cap)) /\
    (∀ j, ev = Some j -> j ≠ key /\ _archiveStore c' !! j = None) /\
    (∀ j, j ≠ key -> ev ≠ Some j -> _archiveStore c' !! j = _archiveStore c !! j) /\
    _archiveOrder c' = filter (fun j => j ≠ key /\ ev ≠ Some j) (_archiveOrder c) ++ [key].
Proof.
  intros Hcap Hrun. pose proof (reachable_inv _ _ _ _ Hrun) as Hinv.
  pose proof Hinv as (Hk & Hnd & _ & Hlen).
  destruct (_archiveStore c !! key) as [e|] eqn:Hkey.
  - (* [key] is present: no eviction *)
    rewrite (set_present cap now key v c Hcap Hinv) by (rewrite Hkey; by eexists).
    eexists _, None. split_and!; [done|by left|done| |].
    + intros j Hj _. cbn [_archiveStore]. by rewrite lookup_insert_ne by congruence.
    + cbn [_archiveOrder]. rewrite remove_first_filter by done. f_equal.
      apply list_filter_iff. intros j. split; [|tauto]. intros Hj. by split.
  - assert (Hko : key ∉ _archiveOrder c) by (rewrite <- Hk, Hkey; by intros []).
    destruct (decide (length (_archiveOrder c) < cap)%nat) as [Hroom|Hfull].
    + (* room left: no eviction *)
      rewrite (set_fresh_room cap now key v c Hinv Hkey Hroom).
      eexists _, None. split_and!; [done|by left|done| |].
      * intros j Hj _. cbn [_archiveStore]. by rewrite lookup_insert_ne by congruence.
      * cbn [_archiveOrder]. f_equal. symmetry. apply filter_all_id.
        intros j Hj. split; [intros ->; by apply Hko|done].
    + (* full: the front key is evicted *)
      assert (Heq : length (_archiveOrder c) = cap) by lia.
      destruct (_archiveOrder c) as [|x r] eqn:Ho; [simpl in Heq; lia|].
      apply NoDup_cons in Hnd as [Hxr Hndr].
      assert (Hxk : x ≠ key) by (intros ->; apply Hko; by left).
      rewrite (set_fresh_full cap now key v c x r Hcap Hkey Ho) by (rewrite Ho; exact Heq).
      eexists _, (Some x). split_and!; [done| |..].
      * right. split_and!; [done|done|done].
      * intros j [= <-]. split; [done|]. cbn [_archiveStore].
        rewrite lookup_insert_ne by congruence. apply lookup_delete_eq.
      * intros j Hj Hjx. cbn [_archiveStore].
        rewrite lookup_insert_ne by congruence.
        apply lookup_delete_ne. congruence.
      * cbn [_archiveOrder]. f_equal.
        rewrite filter_cons_False by (intros [_ Hn]; by apply Hn).
        symmetry. apply filter_all_id. intros j Hj. split.
        -- intros ->. apply Hko. by right.
        -- intros [= ->]. by apply Hxr.
Qed.

Lemma C9_witness :
  (1 <= 2)%nat /\
  run 2 100 [OpSet 0 "a" ∅; OpSet 1 "b" ∅] empty_cache
    = Some (after 2 100 [OpSet 0 "a" ∅; OpSet 1 "b" ∅]) /\
  ∃ c', setArchive 2 2 "c" ∅ (after 2 100 [OpSet 0 "a" ∅; OpSet 1 "b" ∅]) = Some c'.
Proof.
  assert (H : run 2 100 [OpSet 0 "a" ∅; OpSet 1 "b" ∅] empty_cache
                = Some (after 2 100 [OpSet 0 "a" ∅; OpSet 1 "b" ∅]))
    by (vm_compute; reflexivity).
  split_and!; [lia|exact H|].
  destruct (C9_set_frame 2 100 _ _ 2 "c" ∅ ltac:(lia) H) as (c' & ev & Hs & _).
  by exists c'.
Defined.

(** * Further properties of the module *)

Lemma remove_first_app_notin k (o l : list string) :
  k ∉ o -> remove_first k (o ++ l) = o ++ remove_first k l.
Proof.
  induction o as [|x r IH]; intros H; [done|]. simpl.
  destruct (String.eqb_spec x k) as [->|Hne]; [exfalso; apply H; by left|].
  f_equal. apply IH. intros Hr. apply H. by right.
Qed.

Lemma remove_first_snoc_self k (o : list string) :
  k ∉ o -> remove_first k (o ++ [k]) = o.
Proof.
  intros H. rewrite remove_first_app_notin by done. simpl.
  rewrite String.eqb_refl. apply app_nil_r.
Qed.

(** [set] of a new key into a cache with a free slot, followed by [delete]
    of that key, gives back the state before the [set]. *)
Theorem set_delete_roundtrip cap ttl os c now key v :
  run cap ttl os empty_cache = Some c ->
  _archiveStore c !! key = None -> (length (_archiveOrder c) < cap)%nat ->
  ∃ c', setArchive cap now key v c = Some c' /\ deleteArchive key c' = c.
Proof.
  intros Hrun Hnone Hroom. pose proof (reachable_inv _ _ _ _ Hrun) as Hinv.
  eexists. split; [by apply set_fresh_room|].
  rewrite deleteArchive_spec. cbn [_archiveStore _archiveOrder].
  rewrite delete_insert_id by done.
  rewrite remove_first_snoc_self; [by destruct c|].
  destruct Hinv as (Hk & _). rewrite <- Hk, Hnone. by intros [].
Qed.

Lemma set_delete_roundtrip_witness :
  run 2 100 [OpSet 0 "a" ∅] empty_cache = Some (after 2 100 [OpSet 0 "a" ∅]) /\
  ∃ c', setArchive 2 5 "b" ∅ (after 2 100 [OpSet 0 "a" ∅]) = Some c' /\
        deleteArchive "b" c' = after 2 100 [OpSet 0 "a" ∅].
Proof.
  assert (H : run 2 100 [OpSet 0 "a" ∅] empty_cache = Some (after 2 100 [OpSet 0 "a" ∅]))
    by (vm_compute; reflexivity).
  split; [exact H|].
  apply (set_delete_roundtrip _ _ _ _ 5 "b" ∅ H); vm_compute; [reflexivity|lia].
Defined.

(** Two [set] calls on the same key in a row leave the same state as the
    second one alone: the last write wins and the first one's eviction, if
    any, is the one the second would have made. *)
Theorem set_set_last_write_wins cap ttl os c t1 t2 key v1 v2 c1 :
  (1 <= cap)%nat -> run cap ttl os empty_cache = Some c ->
  setArchive cap t1 key v1 c = Some c1 ->
  setArchive cap t2 key v2 c1 = setArchive cap t2 key v2 c.
Proof.
  intros Hcap Hrun Hs1. pose proof (reachable_inv _ _ _ _ Hrun) as Hinv.
  pose proof (inv_set _ _ _ _ _ _ Hcap Hinv Hs1) as Hinv1.
  pose proof Hinv as (Hk & Hnd & _ & Hlen).
  assert (Hp1 : is_Some (_archiveStore c1 !! key)).
  { destruct (setArchive_post _ _ _ _ _ _ Hs1) as (_ & _ & -> & _). by eexists. }
  rewrite (set_present cap t2 key v2 c1 Hcap Hinv1 Hp1).
  destruct (_archiveStore c !! key) as [e|] eqn:Hkey.
  - rewrite (set_present cap t1 key v1 c Hcap Hinv) in Hs1 by (rewrite Hkey; by eexists).
    rewrite (set_present cap t2 key v2 c Hcap Hinv) by (rewrite Hkey; by eexists).
    injection Hs1 as <-. cbn [_archiveStore _archiveOrder].
    rewrite insert_insert_eq, remove_first_snoc_self; [done|].
    rewrite elem_of_remove_first by done. tauto.
  - assert (Hko : key ∉ _archiveOrder c) by (rewrite <- Hk, Hkey; by intros []).
    destruct (decide (length (_archiveOrder c) < cap)%nat) as [Hroom|Hfull].
    + rewrite (set_fresh_room cap t1 key v1 c Hinv Hkey Hroom) in Hs1.
      rewrite (set_fresh_room cap t2 key v2 c Hinv Hkey Hroom).
      injection Hs1 as <-. cbn [_archiveStore _archiveOrder].
      by rewrite insert_insert_eq, remove_first_snoc_self.
    + assert (Heq : length (_archiveOrder c) = cap) by lia.
      destruct (_archiveOrder c) as [|x r] eqn:Ho; [simpl in Heq; lia|].
      rewrite (set_fresh_full cap t1 key v1 c x r Hcap Hkey Ho) in Hs1
        by (rewrite Ho; exact Heq).
      rewrite (set_fresh_full cap t2 key v2 c x r Hcap Hkey Ho)
        by (rewrite Ho; exact Heq).
      injection Hs1 as <-. cbn [_archiveStore _archiveOrder].
      rewrite insert_insert_eq, remove_first_snoc_self; [done|].
      intros Hr. apply Hko. by right.
Qed.

Lemma set_set_last_write_wins_witness :
  (1 <= 2)%nat /\
  run 2 100 [OpSet 0 "a" ∅; OpSet 1 "b" ∅] empty_cache
    = Some (after 2 100 [OpSet 0 "a" ∅; OpSet 1 "b" ∅]) /\
  setArchive 2 2 "c" ∅ (after 2 100 [OpSet 0 "a" ∅; OpSet 1 "b" ∅])
    = Some (after 2 100 [OpSet 0 "a" ∅; OpSet 1 "b" ∅; OpSet 2 "c" ∅]) /\
  setArchive 2 3 "c" {[ "archiveType" := JStr "zip" ]}
    (after 2 100 [OpSet 0 "a" ∅; OpSet 1 "b" ∅; OpSet 2 "c" ∅])
  = setArchive 2 3 "c" {[ "archiveType" := JStr "zip" ]}
      (after 2 100 [OpSet 0 "a" ∅; OpSet 1 "b" ∅]).
Proof.
  assert (H : run 2 100 [OpSet 0 "a" ∅; OpSet 1 "b" ∅] empty_cache
    = Some (after 2 100 [OpSet 0 "a" ∅; OpSet 1 "b" ∅])) by (vm_compute; reflexivity).
  assert (H1 : setArchive 2 2 "c" ∅ (after 2 100 [OpSet 0 "a" ∅; OpSet 1 "b" ∅])
    = Some (after 2 100 [OpSet 0 "a" ∅; OpSet 1 "b" ∅; OpSet 2 "c" ∅]))
    by (vm_compute; reflexivity).
  split_and!; [lia|exact H|exact H1|].
  exact (set_set_last_write_wins 2 100 _ _ 2 3 "c" ∅ _ _ ltac:(lia) H H1).
Defined.

(** The TTL test is strict: an entry stamped at [t] is still returned by a
    [get] at [t + ttl] and is gone for a [get] at [t + ttl + 1]. *)
Theorem get_ttl_boundary ttl key c e t :
  _archiveStore c !! key = Some e -> e !! "timestamp"%string = Some (JNum t) ->
  fst (getArchive ttl (t + ttl) key c) = Some e /\
  fst (getArchive ttl (t + ttl + 1) key c) = None.
Proof.
  intros He Ht. rewrite !getArchive_spec, He. unfold ttl_expired. rewrite Ht.
  replace (Z.ltb ttl (t + ttl - t)) with false by (symmetry; apply Z.ltb_ge; lia).
  replace (Z.ltb ttl (t + ttl + 1 - t)) with true by (symmetry; apply Z.ltb_lt; lia).
  split; [by case_bool_decide|done].
Qed.

Lemma get_ttl_boundary_witness :
  _archiveStore (after 30 100 [OpSet 7 "k" ∅]) !! "k"%string = Some (stamped 7 ∅) /\
  fst (getArchive 100 107 "k" (after 30 100 [OpSet 7 "k" ∅])) = Some (stamped 7 ∅) /\
  fst (getArchive 100 108 "k" (after 30 100 [OpSet 7 "k" ∅])) = None.
Proof.
  assert (H : _archiveStore (after 30 100 [OpSet 7 "k" ∅]) !! "k"%string
                = Some (stamped 7 ∅)) by (vm_compute; reflexivity).
  split; [exact H|].
  exact (get_ttl_boundary 100 "k" _ _ 7 H ltac:(vm_compute; reflexivity)).
Defined.

(** A [get] that returns an entry, repeated at the same time, returns the
    same entry and leaves the state as the first one did. *)
Theorem get_get_idempotent cap ttl os c now key e c1 :
  run cap ttl os empty_cache = Some c ->
  getArchive ttl now key c = (Some e, c1) ->
  getArchive ttl now key c1 = (Some e, c1).
Proof.
  intros Hrun. destruct (reachable_inv _ _ _ _ Hrun) as (Hk & Hnd & _ & _).
  rewrite getArchive_spec.
  destruct (_archiveStore c !! key) as [e0|] eqn:He; [|done].
  destruct (ttl_expired ttl now e0) eqn:Hexp; [done|].
  rewrite bool_decide_eq_true_2 by (apply Hk; by eexists).
  intros [= <- <-]. rewrite getArchive_spec. cbn [_archiveStore _archiveOrder].
  rewrite He, Hexp, bool_decide_eq_true_2 by (apply elem_of_app; right; by left).
  rewrite remove_first_snoc_self; [done|].
  rewrite elem_of_remove_first by done. tauto.
Qed.

Lemma get_get_idempotent_witness :
  run 2 100 [OpSet 0 "a" ∅; OpSet 1 "b" ∅] empty_cache
    = Some (after 2 100 [OpSet 0 "a" ∅; OpSet 1 "b" ∅]) /\
  getArchive 100 50 "a" (after 2 100 [OpSet 0 "a" ∅; OpSet 1 "b" ∅])
    = (Some (stamped 0 ∅), after 2 100 [OpSet 0 "a" ∅; OpSet 1 "b" ∅; OpGet 50 "a"]) /\
  getArchive 100 50 "a" (after 2 100 [OpSet 0 "a" ∅; OpSet 1 "b" ∅; OpGet 50 "a"])
    = (Some (stamped 0 ∅), after 2 100 [OpSet 0 "a" ∅; OpSet 1 "b" ∅; OpGet 50 "a"]).
Proof.
  assert (H : run 2 100 [OpSet 0 "a" ∅; OpSet 1 "b" ∅] empty_cache
    = Some (after 2 100 [OpSet 0 "a" ∅; OpSet 1 "b" ∅])) by (vm_compute; reflexivity).
  assert (H1 : getArchive 100 50 "a" (after 2 100 [OpSet 0 "a" ∅; OpSet 1 "b" ∅])
    = (Some (stamped 0 ∅), after 2 100 [OpSet 0 "a" ∅; OpSet 1 "b" ∅; OpGet 50 "a"]))
    by (vm_compute; reflexivity).
  split_and!; [exact H|exact H1|].
  exact (get_get_idempotent _ _ _ _ _ _ _ _ H H1).
Defined.

(** After a [get], [has] answers true exactly when the [get] returned an
    entry: a [null] result always leaves the key out of the cache. *)
Theorem has_after_get ttl now key c :
  has key (snd (getArchive ttl now key c)) = bool_decide (is_Some (fst (getArchive ttl now key c))).
Proof.
  unfold has. rewrite getArchive_spec.
  destruct (_archiveStore c !! key) as [e|] eqn:He.
  - destruct (ttl_expired ttl now e).
    + cbn [fst snd]. rewrite deleteArchive_spec. cbn [_archiveStore].
      rewrite lookup_delete_eq. done.
    + destruct (bool_decide (key ∈ _archiveOrder c)); cbn [fst snd _archiveStore];
        rewrite He, !bool_decide_eq_true_2 by (by eexists); done.
  - cbn [fst snd]. rewrite He. done.
Qed.

(** A [get] never changes or removes an entry of another key. *)
Theorem get_frame ttl now key c j :
  j ≠ key -> _archiveStore (snd (getArchive ttl now key c)) !! j = _archiveStore c !! j.
Proof.
  intros Hj. rewrite getArchive_spec.
  destruct (_archiveStore c !! key) as [e|]; [|done].
  destruct (ttl_expired ttl now e).
  - cbn [snd]. rewrite deleteArchive_spec. cbn [_archiveStore].
    by apply lookup_delete_ne.
  - by case_bool_decide.
Qed.

Lemma get_frame_witness :
  ("b" ≠ "a")%string /\
  _archiveStore (snd (getArchive 100 500 "a" (after 2 100 [OpSet 0 "a" ∅; OpSet 1 "b" ∅])))
    !! "b"%string
  = _archiveStore (after 2 100 [OpSet 0 "a" ∅; OpSet 1 "b" ∅]) !! "b"%string.
Proof.
  assert (H : ("b" ≠ "a")%string) by (apply (bool_decide_unpack _); vm_compute; exact I).
  split; [exact H|]. exact (get_frame 100 500 "a" _ "b" H).
Defined.

(** The number of entries after [set]: unchanged when the key was already
    there, one more when it is new and a slot is free, and still [cap]
    when it is new and the cache was full. *)
Theorem set_size cap ttl os c now key v c' :
  (1 <= cap)%nat -> run cap ttl os empty_cache = Some c ->
  setArchive cap now key v c = Some c' ->
  size (_archiveStore c') =
    if has key c then size (_archiveStore c) else Nat.min (S (size (_archiveStore c))) cap.
Proof.
  intros Hcap Hrun Hs. pose proof (reachable_inv _ _ _ _ Hrun) as Hinv.
  destruct (inv_set _ _ _ _ _ _ Hcap Hinv Hs) as (_ & _ & -> & _).
  pose proof Hinv as (Hk & Hnd & -> & Hlen). unfold has.
  destruct (_archiveStore c !! key) as [e|] eqn:Hkey.
  - rewrite bool_decide_eq_true_2 by (by eexists).
    rewrite (set_present cap now key v c Hcap Hinv) in Hs by (rewrite Hkey; by eexists).
    injection Hs as <-. cbn [_archiveOrder].
    assert (Hin : key ∈ _archiveOrder c) by (apply Hk; by eexists).
    rewrite length_app, length_remove_first_in by done. simpl.
    destruct (_archiveOrder c); [by apply not_elem_of_nil in Hin|simpl; lia].
  - rewrite bool_decide_eq_false_2 by (by intros []).
    destruct (decide (length (_archiveOrder c) < cap)%nat) as [Hroom|Hfull].
    + rewrite (set_fresh_room cap now key v c Hinv Hkey Hroom) in Hs.
      injection Hs as <-. cbn [_archiveOrder]. rewrite length_app, Nat.min_l by lia.
      simpl. lia.
    + assert (Heq : length (_archiveOrder c) = cap) by lia.
      destruct (_archiveOrder c) as [|x r] eqn:Ho; [simpl in Heq; lia|].
      rewrite (set_fresh_full cap now key v c x r Hcap Hkey Ho) in Hs
        by (rewrite Ho; exact Heq).
      injection Hs as <-. cbn [_archiveOrder].
      rewrite length_app, Nat.min_r by lia. simpl in *. lia.
Qed.

Lemma set_size_witness :
  (1 <= 2)%nat /\
  run 2 100 [OpSet 0 "a" ∅; OpSet 1 "b" ∅] empty_cache
    = Some (after 2 100 [OpSet 0 "a" ∅; OpSet 1 "b" ∅]) /\
  setArchive 2 2 "c" ∅ (after 2 100 [OpSet 0 "a" ∅; OpSet 1 "b" ∅])
    = Some (after 2 100 [OpSet 0 "a" ∅; OpSet 1 "b" ∅; OpSet 2 "c" ∅]) /\
  size (_archiveStore (after 2 100 [OpSet 0 "a" ∅; OpSet 1 "b" ∅; OpSet 2 "c" ∅])) = 2%nat.
Proof.
  assert (H : run 2 100 [OpSet 0 "a" ∅; OpSet 1 "b" ∅] empty_cache
    = Some (after 2 100 [OpSet 0 "a" ∅; OpSet 1 "b" ∅])) by (vm_compute; reflexivity).
  assert (H1 : setArchive 2 2 "c" ∅ (after 2 100 [OpSet 0 "a" ∅; OpSet 1 "b" ∅])
    = Some (after 2 100 [OpSet 0 "a" ∅; OpSet 1 "b" ∅; OpSet 2 "c" ∅]))
    by (vm_compute; reflexivity).
  split_and!; [lia|exact H|exact H1|].
  rewrite (set_size 2 100 _ _ 2 "c" ∅ _ ltac:(lia) H H1). vm_compute. reflexivity.
Defined.

(** In every reachable state two [delete] calls on different keys give the
    same state in either order. *)
Theorem delete_commute cap ttl os c a b :
  run cap ttl os empty_cache = Some c ->
  deleteArchive a (deleteArchive b c) = deleteArchive b (deleteArchive a c).
Proof.
  intros Hrun. destruct (reachable_inv _ _ _ _ Hrun) as (_ & Hnd & _ & _).
  rewrite !deleteArchive_spec. cbn [_archiveStore _archiveOrder].
  rewrite !(remove_first_filter _ (_archiveOrder c)) by done.
  rewrite !remove_first_filter by (by apply NoDup_filter).
  rewrite delete_delete, !list_filter_filter. f_equal.
  apply list_filter_iff. intros x. tauto.
Qed.

Lemma delete_commute_witness :
  run 2 100 demo_ops empty_cache = Some (after 2 100 demo_ops) /\
  deleteArchive "b" (deleteArchive "c" (after 2 100 demo_ops))
    = deleteArchive "c" (deleteArchive "b" (after 2 100 demo_ops)).
Proof.
  assert (H : run 2 100 demo_ops empty_cache = Some (after 2 100 demo_ops))
    by (vm_compute; reflexivity).
  split; [exact H|]. exact (delete_commute _ _ _ _ "b" "c" H).
Defined.
